(** * Tic-tac-toe game state (game-state.go): model and properties

    A shallow embedding of the game-state engine: the board, the
    per-player line counters, [startGame], [getDiag], [checkGameOver] and
    [makeMove].  Go [int]s are integers with 64-bit wrap-around on
    increment, fixed-size arrays are lists whose indexing fails out of
    range (a Go run-time panic), and the [*GameState] that [makeMove]
    mutates in place is threaded explicitly. *)

From Stdlib Require Import ZArith Lia Bool Ascii DecimalString.
From stdpp Require Import base option list strings gmap.

#[local] Open Scope Z_scope.

(** ** Machine integers *)

Module GoInt.

Definition bits : Z := 64.
Definition min_int : Z := - 2 ^ (bits - 1).
Definition max_int : Z := 2 ^ (bits - 1) - 1.

(** Two's complement wrap-around of an arbitrary integer into [int]. *)
Definition wrap (z : Z) : Z := (z - min_int) mod 2 ^ bits + min_int.

(** [v++] *)
Definition incr (z : Z) : Z := wrap (z + 1).

End GoInt.

(** ** Fixed-size arrays

    An array is a list; an index outside [0, len) makes the access fail,
    as the Go run time panics there. *)

Module Arr.

Definition get {A} (a : list A) (i : Z) : option A :=
  if i <? 0 then None else a !! Z.to_nat i.

Definition set {A} (a : list A) (i : Z) (v : A) : option (list A) :=
  if (i <? 0) || (Z.of_nat (length a) <=? i) then None
  else Some (<[Z.to_nat i := v]> a).

(** [a[i]++] on an array of [int]. *)
Definition incr (a : list Z) (i : Z) : option (list Z) :=
  v ← get a i; set a i (GoInt.incr v).

End Arr.

(** A counting [for i := 0; i < bound; i++] loop over a state that the
    body may fail on. *)
Definition forRange {S} (bound : Z) (body : Z -> S -> option S) (s : S)
  : option S :=
  fold_left (fun acc i => s' ← acc; body i s') (seqZ 0 bound) (Some s).

(** ** Data model *)

(** Board size - change this to change the size of the game board. *)
Definition boardSize : Z := 3.

(** [O] is player 1's piece, [X] player 2's, [B] the blank placeholder;
    [O] is the zero value of the type. *)
Inductive Piece : Set := O | X | B.

Definition Piece_eqb (p q : Piece) : bool :=
  match p, q with
  | O, O | X, X | B, B => true
  | _, _ => false
  end.

#[global] Instance Piece_eq_dec : EqDecision Piece.
Proof. solve_decision. Defined.

(** [[boardSize][boardSize]Piece], indexed [board[x][y]]. *)
Definition Board : Type := list (list Piece).

(** Counts of a player's pieces in each row, column and diagonal. *)
Record PlayerCounts : Type := mkCounts {
  rows : list Z;
  cols : list Z;
  diags : list Z
}.

Inductive GameResult : Set := OWin | XWin | Tie | Pending.

Definition GameResult_eqb (r s : GameResult) : bool :=
  match r, s with
  | OWin, OWin | XWin, XWin | Tie, Tie | Pending, Pending => true
  | _, _ => false
  end.

(** The struct declares [currPiece], [currPlayer] and [totalPieces]; the
    functions also write [currentPiece], [currentPlayer] and
    [totalCount].  Each pair is one field here. *)
Record GameState : Type := mkGame {
  board : Board;
  currPiece : Piece;
  currPlayer : string;
  nextPlayer : string;
  oCounts : PlayerCounts;
  xCounts : PlayerCounts;
  totalPieces : Z
}.

(** The three [fmt.Errorf] values of [makeMove], with their arguments. *)
Inductive err : Type :=
| ErrNotTurn (user : string)
| ErrOutOfRange (x y : Z)
| ErrNotEmpty (x y : Z).

(** [%d] *)
Definition fmt_d (z : Z) : string := NilZero.string_of_int (Z.to_int z).

Definition errMessage (e : err) : string :=
  match e with
  | ErrNotTurn user => "It's not player " +:+ user +:+ "'s turn"
  | ErrOutOfRange x y =>
      "Board position " +:+ fmt_d x +:+ " " +:+ fmt_d y +:+ " is out of range."
  | ErrNotEmpty x y =>
      "Board position " +:+ fmt_d x +:+ " " +:+ fmt_d y +:+ " is not empty."
  end.

(** Zero values of the composite types. *)
Definition zeroBoard : Board :=
  replicate (Z.to_nat boardSize) (replicate (Z.to_nat boardSize) O).

Definition zeroCounts : PlayerCounts :=
  {| rows := replicate (Z.to_nat boardSize) 0;
     cols := replicate (Z.to_nat boardSize) 0;
     diags := replicate 2 0 |}.

(** ** Board access *)

Definition boardGet (b : Board) (x y : Z) : option Piece :=
  row ← Arr.get b x; Arr.get row y.

Definition boardSet (b : Board) (x y : Z) (p : Piece) : option Board :=
  row ← Arr.get b x; row' ← Arr.set row y p; Arr.set b x row'.

(** ** Operations *)

(** The registry of ongoing games, keyed by user pair. *)
Abbreviation Games := (gmap string GameState).

Definition getUserPairKey (userA userB : string) : string :=
  if String.leb userA userB then userA +:+ "$$" +:+ userB
  else userB +:+ "$$" +:+ userA.

(** Fill the board with blanks. *)
Definition initBoard (b : Board) : option Board :=
  forRange boardSize
    (fun i b => forRange boardSize (fun j b => boardSet b i j B) b) b.

(** Creates a new game between [userA] and [userB] and registers it,
    overriding a previous game of the pair.  The composite literal sets
    [board], [currPiece] and [currPlayer]; the other fields keep their
    zero values. *)
Definition startGame (currentGames : Games) (userA userB : string)
  : option (Games * GameState) :=
  board ← initBoard zeroBoard;
  let game := {| board := board; currPiece := O; currPlayer := userA;
                 nextPlayer := ""; oCounts := zeroCounts;
                 xCounts := zeroCounts; totalPieces := 0 |} in
  let key := getUserPairKey userA userB in
  Some (<[key := game]> currentGames, game).

Definition clearGame (currentGames : Games) (userA userB : string) : Games :=
  let key := getUserPairKey userA userB in
  delete key currentGames.

Definition getDiag (x y : Z) : Z :=
  let last := boardSize - 1 in
  (* Top left to bottom right diagonal. *)
  if (x =? 0) && (y =? 0) || (x =? last) && (y =? last) then 0
  (* Top right to bottom left diagonal. *)
  else if (x =? last) && (y =? 0) || (x =? 0) && (y =? last) then 1
  (* Not a diagonal. *)
  else -1.

(** The three conditions of [checkGameOver], over one player's counts.
    [diagWin] reads the diagonal counter only when [getDiag] is not
    negative. *)
Definition diagWin (counts : PlayerCounts) (x y : Z) : option bool :=
  let diag := getDiag x y in
  if diag >=? 0 then d ← Arr.get (diags counts) diag; Some (d =? boardSize)
  else Some false.

Definition rowWin (counts : PlayerCounts) (i : Z) : option bool :=
  r ← Arr.get (rows counts) i; Some (r =? boardSize).

Definition colWin (counts : PlayerCounts) (i : Z) : option bool :=
  c ← Arr.get (cols counts) i; Some (c =? boardSize).

(** Checks if the game is over: the current player has won, or the board
    is full. *)
Definition checkGameOver (game : GameState) (x y : Z) : option GameResult :=
  won ←
    (if Piece_eqb (currPiece game) O then
       dw ← diagWin (oCounts game) x y;
       rw ← rowWin (oCounts game) x;
       cw ← colWin (oCounts game) y;
       Some (if dw || rw || cw then Some OWin else None)
     else
       dw ← diagWin (xCounts game) x y;
       rw ← rowWin (xCounts game) x;
       cw ← colWin (xCounts game) x;
       Some (if dw || rw || cw then Some XWin else None));
  match won with
  | Some result => Some result
  | None =>
      if totalPieces game =? boardSize * boardSize then Some Tie
      else Some Pending
  end.

(** The counter updates of a move, on one player's counts. *)
Definition countPiece (counts : PlayerCounts) (x y : Z) : option PlayerCounts :=
  rows' ← Arr.incr (rows counts) x;
  cols' ← Arr.incr (cols counts) y;
  let diag := getDiag x y in
  diags' ← (if diag >=? 0 then Arr.incr (diags counts) diag
            else Some (diags counts));
  Some {| rows := rows'; cols := cols'; diags := diags' |}.

(** What a call returns: the error (or nil) and the game result. *)
Definition MoveReturn : Type := option err * GameResult.

(** Makes a move by placing a piece on position (x,y) if valid.  The
    result is the game state after the call and what the call returns;
    [None] is a run-time panic. *)
Definition makeMove (game : GameState) (user : string) (x y : Z)
  : option (GameState * MoveReturn) :=
  if negb (String.eqb user (currPlayer game)) then
    Some (game, (Some (ErrNotTurn user), Pending))
  else if (x <? 0) || (x >=? boardSize) || (y <? 0) || (y >=? boardSize) then
    Some (game, (Some (ErrOutOfRange x y), Pending))
  else
    cell ← boardGet (board game) x y;
    if negb (Piece_eqb cell B) then
      Some (game, (Some (ErrNotEmpty x y), Pending))
    else
      board' ← boardSet (board game) x y (currPiece game);
      let total' := GoInt.incr (totalPieces game) in
      '(oCounts', xCounts') ←
        (if Piece_eqb (currPiece game) O then
           c ← countPiece (oCounts game) x y; Some (c, xCounts game)
         else
           c ← countPiece (xCounts game) x y; Some (oCounts game, c));
      let game1 := {| board := board'; currPiece := currPiece game;
                      currPlayer := currPlayer game;
                      nextPlayer := nextPlayer game;
                      oCounts := oCounts'; xCounts := xCounts';
                      totalPieces := total' |} in
      gameResult ← checkGameOver game1 x y;
      if negb (GameResult_eqb gameResult Pending) then
        Some (game1, (None, gameResult))
      else
        (* Change the current piece to the other one, and swap the
           players. *)
        let piece' := if Piece_eqb (currPiece game1) O then X else O in
        Some ({| board := board'; currPiece := piece';
                 currPlayer := nextPlayer game1; nextPlayer := user;
                 oCounts := oCounts'; xCounts := xCounts';
                 totalPieces := total' |},
              (None, Pending)).

(** ** Sequences of calls *)

(** A call of [makeMove], and a sequence of calls on one game: the state
    after the last call and what each call returned. *)
Record Call : Type := mkCall { mover : string; cx : Z; cy : Z }.

Fixpoint play (game : GameState) (calls : list Call)
  : option (GameState * list MoveReturn) :=
  match calls with
  | [] => Some (game, [])
  | c :: rest =>
      '(game', ret) ← makeMove game (mover c) (cx c) (cy c);
      '(final, rets) ← play game' rest;
      Some (final, ret :: rets)
  end.

(** Calls that returned a nil error. *)
Definition isNil (ret : MoveReturn) : bool :=
  match fst ret with None => true | Some _ => false end.

Definition succeeded (rets : list MoveReturn) : nat :=
  length (List.filter isNil rets).

(** The state a sequence of calls leaves ([game] itself on a panic). *)
Definition stateAfter (game : GameState) (calls : list Call) : GameState :=
  match play game calls with
  | Some (game', _) => game'
  | None => game
  end.

(** States a game can be in: fresh from [startGame], or after a call of
    [makeMove] that returned. *)
Inductive reachable : GameState -> Prop :=
| reach_start games games' userA userB game :
    startGame games userA userB = Some (games', game) -> reachable game
| reach_move game user x y game' ret :
    reachable game -> makeMove game user x y = Some (game', ret) ->
    reachable game'.

(** ** The structure of a call *)

(** The coordinates that pass the range check. *)
Definition inRange (x y : Z) : Prop :=
  0 <= x < boardSize /\ 0 <= y < boardSize.

#[global] Instance inRange_dec x y : Decision (inRange x y).
Proof. unfold inRange. apply _. Defined.

(** The two halves of a valid move: the state once the piece is on the
    board and counted, and the hand-over of the turn that follows a
    [Pending] result. *)
Definition placed (game : GameState) (x y : Z) : option GameState :=
  board' ← boardSet (board game) x y (currPiece game);
  '(oCounts', xCounts') ←
    (if Piece_eqb (currPiece game) O then
       c ← countPiece (oCounts game) x y; Some (c, xCounts game)
     else
       c ← countPiece (xCounts game) x y; Some (oCounts game, c));
  Some {| board := board'; currPiece := currPiece game;
          currPlayer := currPlayer game; nextPlayer := nextPlayer game;
          oCounts := oCounts'; xCounts := xCounts';
          totalPieces := GoInt.incr (totalPieces game) |}.

Definition turned (game : GameState) (user : string) : GameState :=
  {| board := board game;
     currPiece := if Piece_eqb (currPiece game) O then X else O;
     currPlayer := nextPlayer game; nextPlayer := user;
     oCounts := oCounts game; xCounts := xCounts game;
     totalPieces := totalPieces game |}.

Definition afterResult (game : GameState) (user : string) (r : GameResult)
  : GameState :=
  if GameResult_eqb r Pending then turned game user else game.

(** The four ways a call can go: the three refusals, in the order of the
    checks, and the valid move. *)
Inductive MoveCase (g : GameState) (u : string) (x y : Z)
  : option (GameState * MoveReturn) -> Prop :=
| move_not_turn :
    u <> currPlayer g ->
    MoveCase g u x y (Some (g, (Some (ErrNotTurn u), Pending)))
| move_out_of_range :
    u = currPlayer g -> ~ inRange x y ->
    MoveCase g u x y (Some (g, (Some (ErrOutOfRange x y), Pending)))
| move_not_empty q :
    u = currPlayer g -> inRange x y ->
    boardGet (board g) x y = Some q -> q <> B ->
    MoveCase g u x y (Some (g, (Some (ErrNotEmpty x y), Pending)))
| move_valid g1 r :
    u = currPlayer g -> inRange x y ->
    boardGet (board g) x y = Some B ->
    placed g x y = Some g1 -> checkGameOver g1 x y = Some r ->
    MoveCase g u x y (Some (afterResult g1 u r, (None, r))).

(** ** What the counters should hold, and the invariant *)

(** 1 when cell (x,y) holds piece [p], else 0. *)
Definition holds (p q : Piece) : Z := if Piece_eqb q p then 1 else 0.

Definition cellIs (p : Piece) (b : Board) (x y : Z) : Z :=
  match boardGet b x y with Some q => holds p q | None => 0 end.

Definition sumZ (l : list Z) : Z := foldr Z.add 0 l.

Definition rowCount (p : Piece) (b : Board) (x : Z) : Z :=
  sumZ (map (fun y => cellIs p b x y) (seqZ 0 boardSize)).

Definition colCount (p : Piece) (b : Board) (y : Z) : Z :=
  sumZ (map (fun x => cellIs p b x y) (seqZ 0 boardSize)).

(** The cells on which [getDiag] answers [d]: two opposite corners. *)
Definition cornerCount (p : Piece) (b : Board) (d : Z) : Z :=
  let last := boardSize - 1 in
  if d =? 0 then cellIs p b 0 0 + cellIs p b last last
  else cellIs p b last 0 + cellIs p b 0 last.

Definition tracked (p : Piece) (b : Board) : PlayerCounts :=
  {| rows := map (rowCount p b) (seqZ 0 boardSize);
     cols := map (colCount p b) (seqZ 0 boardSize);
     diags := map (cornerCount p b) (seqZ 0 2) |}.

(** Number of non-blank cells. *)
Definition filled (q : Piece) : Z := if Piece_eqb q B then 0 else 1.

Definition nonBlank (b : Board) : Z := sumZ (map filled (concat b)).

Definition wfBoard (b : Board) : Prop :=
  length b = Z.to_nat boardSize /\
  Forall (fun row => length row = Z.to_nat boardSize) b.

Definition wfCounts (c : PlayerCounts) : Prop :=
  length (rows c) = Z.to_nat boardSize /\
  length (cols c) = Z.to_nat boardSize /\
  length (diags c) = 2%nat.

(** The shape the Go types give every game state. *)
Definition wfGame (g : GameState) : Prop :=
  wfBoard (board g) /\ wfCounts (oCounts g) /\ wfCounts (xCounts g).

(** The invariant of reachable states. *)
Record Inv (g : GameState) : Prop := mkInv {
  inv_board : wfBoard (board g);
  inv_piece : currPiece g <> B;
  inv_o : oCounts g = tracked O (board g);
  inv_x : xCounts g = tracked X (board g);
  inv_total : totalPieces g = nonBlank (board g)
}.

(** ** Full-board scan

    From the specification: a player has won when some row, some column
    or one of the two diagonals holds [boardSize] cells of that player's
    piece.  This is the exhaustive scan the counters are compared with;
    nothing in the source computes it. *)

Definition allLines : list (list (Z * Z)) :=
  let idx := seqZ 0 boardSize in
  map (fun x => map (fun y => (x, y)) idx) idx
  ++ map (fun y => map (fun x => (x, y)) idx) idx
  ++ [map (fun i => (i, i)) idx; map (fun i => (i, boardSize - 1 - i)) idx].

Definition ownsCell (p : Piece) (b : Board) (xy : Z * Z) : bool :=
  match boardGet b (fst xy) (snd xy) with
  | Some q => Piece_eqb q p
  | None => false
  end.

Definition scanWins (p : Piece) (b : Board) : bool :=
  existsb (fun line => forallb (ownsCell p b) line) allLines.

Definition scanWinner (b : Board) : option Piece :=
  if scanWins O b then Some O
  else if scanWins X b then Some X
  else None.

(** The winner a game result names. *)
Definition winnerOf (r : GameResult) : option Piece :=
  match r with
  | OWin => Some O
  | XWin => Some X
  | Tie | Pending => None
  end.

(** The four corner cells. *)
Definition corners : list (Z * Z) := [(0, 0); (2, 2); (2, 0); (0, 2)].

(** ** Sample games

    [startGame] leaves [nextPlayer] empty, so after the first move the
    turn passes to the player named by the empty string; the games below
    are played by "alice" and that player. *)

Definition aliceGame : GameState :=
  {| board := [[B; B; B]; [B; B; B]; [B; B; B]]; currPiece := O;
     currPlayer := "alice"; nextPlayer := "";
     oCounts := zeroCounts; xCounts := zeroCounts; totalPieces := 0 |}.

(** X takes (0,0), (1,0), (2,0): every cell with y = 0. *)
Definition columnGame : list Call :=
  [mkCall "alice" 0 1; mkCall "" 0 0; mkCall "alice" 1 1; mkCall "" 1 0;
   mkCall "alice" 2 2; mkCall "" 2 0].

(** O takes the main diagonal (0,0), (1,1), (2,2). *)
Definition diagonalGame : list Call :=
  [mkCall "alice" 0 0; mkCall "" 0 1; mkCall "alice" 1 1; mkCall "" 0 2;
   mkCall "alice" 2 2].

(** O takes the four corners and, with the ninth piece, the centre. *)
Definition fullBoardGame : list Call :=
  [mkCall "alice" 0 0; mkCall "" 0 1; mkCall "alice" 0 2; mkCall "" 1 0;
   mkCall "alice" 2 0; mkCall "" 1 2; mkCall "alice" 2 2; mkCall "" 2 1;
   mkCall "alice" 1 1].

(** The scenario (0,0),(1,0),(0,1),(1,1),(0,2) with the players of
    [startGame first second] alternating. *)
Definition scenario (first second : string) : list Call :=
  [mkCall first 0 0; mkCall second 1 0; mkCall first 0 1;
   mkCall second 1 1; mkCall first 0 2].

(** Four moves into the scenario played by "alice" and the unnamed
    player: O holds (0,0) and (0,1), X holds (1,0) and (1,1). *)
Definition nearWin : GameState :=
  Eval cbv in stateAfter aliceGame (take 4 (scenario "alice" "")).

Definition rowWon : GameState :=
  Eval cbv in stateAfter aliceGame (scenario "alice" "").

(** ** User names and keys *)

(** A name free of the character that the key separator is made of. *)
Fixpoint noDollar (s : string) : bool :=
  match s with
  | EmptyString => true
  | String c s' => negb (Ascii.eqb c "$"%char) && noDollar s'
  end.

(** A drawn game: nine pieces, no line for either player. *)
Definition drawGame : list Call :=
  [mkCall "alice" 0 0; mkCall "" 0 1; mkCall "alice" 0 2; mkCall "" 1 1;
   mkCall "alice" 1 0; mkCall "" 1 2; mkCall "alice" 2 1; mkCall "" 2 0;
   mkCall "alice" 2 2].

(** * Properties *)

Arguments GoInt.incr : simpl never.
Arguments holds : simpl never.
Arguments filled : simpl never.

(** ** Integers and coordinates *)

Lemma GoInt_wrap_small z :
  GoInt.min_int <= z <= GoInt.max_int -> GoInt.wrap z = z.
Proof.
  unfold GoInt.wrap, GoInt.min_int, GoInt.max_int, GoInt.bits. intros Hz.
  rewrite Z.mod_small by lia. lia.
Qed.

Lemma GoInt_incr_small z : 0 <= z <= 9 -> GoInt.incr z = z + 1.
Proof.
  intros Hz. unfold GoInt.incr. apply GoInt_wrap_small.
  unfold GoInt.min_int, GoInt.max_int, GoInt.bits. lia.
Qed.

Lemma range_check_false x y :
  (x <? 0) || (x >=? boardSize) || (y <? 0) || (y >=? boardSize) = false
  <-> inRange x y.
Proof. unfold inRange, boardSize. lia. Qed.

Lemma range_check_true x y :
  (x <? 0) || (x >=? boardSize) || (y <? 0) || (y >=? boardSize) = true
  <-> ~ inRange x y.
Proof. unfold inRange, boardSize. lia. Qed.

Lemma coord_cases x : 0 <= x < boardSize -> x = 0 \/ x = 1 \/ x = 2.
Proof. unfold boardSize. lia. Qed.

Lemma Piece_eqb_eq p q : Piece_eqb p q = true <-> p = q.
Proof. destruct p, q; simpl; split; congruence. Qed.

Lemma holds_bounds p q : 0 <= holds p q <= 1.
Proof. unfold holds. destruct (Piece_eqb q p); lia. Qed.

Lemma filled_bounds q : 0 <= filled q <= 1.
Proof. unfold filled. destruct (Piece_eqb q B); lia. Qed.

(** ** Shapes *)

Lemma wfBoard_shape b :
  wfBoard b ->
  exists c00 c01 c02 c10 c11 c12 c20 c21 c22,
    b = [[c00; c01; c02]; [c10; c11; c12]; [c20; c21; c22]].
Proof.
  intros [Hlen Hrows].
  destruct b as [|[|c00 [|c01 [|c02 [|]]]] [|[|c10 [|c11 [|c12 [|]]]]
                 [|[|c20 [|c21 [|c22 [|]]]] [|]]]];
    repeat match goal with
           | H : Forall _ (_ :: _) |- _ => inversion_clear H
           end;
    try discriminate.
  by exists c00, c01, c02, c10, c11, c12, c20, c21, c22.
Qed.

Lemma wfCounts_shape c :
  wfCounts c ->
  exists r0 r1 r2 k0 k1 k2 d0 d1,
    c = {| rows := [r0; r1; r2]; cols := [k0; k1; k2]; diags := [d0; d1] |}.
Proof.
  destruct c as [r k d]. intros (Hr & Hk & Hd). simpl in *.
  destruct r as [|r0 [|r1 [|r2 [|]]]]; try discriminate.
  destruct k as [|k0 [|k1 [|k2 [|]]]]; try discriminate.
  destruct d as [|d0 [|d1 [|]]]; try discriminate.
  by exists r0, r1, r2, k0, k1, k2, d0, d1.
Qed.

Lemma tracked_wf p b : wfCounts (tracked p b).
Proof. by repeat split. Qed.

Lemma Inv_wfGame g : Inv g -> wfGame g.
Proof.
  intros [Hb _ Ho Hx _]. repeat split; try apply Hb;
    rewrite ?Ho, ?Hx; reflexivity.
Qed.

(** ** The structure of a call *)

Lemma makeMove_valid g u x y :
  u = currPlayer g -> inRange x y -> boardGet (board g) x y = Some B ->
  makeMove g u x y =
  (g1 ← placed g x y; r ← checkGameOver g1 x y;
   Some (afterResult g1 u r, (None, r))).
Proof.
  intros -> Hr Hc. unfold makeMove, placed, afterResult.
  rewrite String.eqb_refl. simpl.
  apply range_check_false in Hr. rewrite Hr, Hc. simpl.
  destruct (boardSet _ _ _ _) as [b'|]; simpl; [|done].
  destruct (Piece_eqb (currPiece g) O) eqn:E;
    (destruct (countPiece _ x y) as [c|]; simpl; [|done]);
    (destruct (checkGameOver _ x y) as [r|]; simpl; [|done]);
    destruct r; unfold turned; simpl; by rewrite ?E.
Qed.

Lemma makeMove_not_turn g u x y :
  u <> currPlayer g ->
  makeMove g u x y = Some (g, (Some (ErrNotTurn u), Pending)).
Proof.
  intros Hu. unfold makeMove.
  apply String.eqb_neq in Hu. by rewrite Hu.
Qed.

Lemma makeMove_out_of_range g u x y :
  u = currPlayer g -> ~ inRange x y ->
  makeMove g u x y = Some (g, (Some (ErrOutOfRange x y), Pending)).
Proof.
  intros -> Hr. unfold makeMove. rewrite String.eqb_refl. simpl.
  apply range_check_true in Hr. by rewrite Hr.
Qed.

Lemma makeMove_not_empty g u x y q :
  u = currPlayer g -> inRange x y ->
  boardGet (board g) x y = Some q -> q <> B ->
  makeMove g u x y = Some (g, (Some (ErrNotEmpty x y), Pending)).
Proof.
  intros -> Hr Hc Hq. unfold makeMove. rewrite String.eqb_refl. simpl.
  apply range_check_false in Hr. rewrite Hr, Hc. simpl.
  destruct (Piece_eqb q B) eqn:E; [|done].
  by apply Piece_eqb_eq in E.
Qed.

Lemma boardGet_wf b x y :
  wfBoard b -> inRange x y -> exists q, boardGet b x y = Some q.
Proof.
  intros Hb [Hx Hy]. apply wfBoard_shape in Hb.
  destruct Hb as (c00 & c01 & c02 & c10 & c11 & c12 & c20 & c21 & c22 & ->).
  apply coord_cases in Hx, Hy.
  destruct Hx as [-> | [-> | ->]], Hy as [-> | [-> | ->]]; by eexists.
Qed.

(** ** The invariant *)

Lemma tracked_shape p c00 c01 c02 c10 c11 c12 c20 c21 c22 :
  tracked p [[c00; c01; c02]; [c10; c11; c12]; [c20; c21; c22]] =
  {| rows := [holds p c00 + (holds p c01 + (holds p c02 + 0));
              holds p c10 + (holds p c11 + (holds p c12 + 0));
              holds p c20 + (holds p c21 + (holds p c22 + 0))];
     cols := [holds p c00 + (holds p c10 + (holds p c20 + 0));
              holds p c01 + (holds p c11 + (holds p c21 + 0));
              holds p c02 + (holds p c12 + (holds p c22 + 0))];
     diags := [holds p c00 + holds p c22; holds p c20 + holds p c02] |}.
Proof. reflexivity. Qed.

Lemma nonBlank_shape c00 c01 c02 c10 c11 c12 c20 c21 c22 :
  nonBlank [[c00; c01; c02]; [c10; c11; c12]; [c20; c21; c22]] =
  filled c00 + (filled c01 + (filled c02 + (filled c10 + (filled c11 +
  (filled c12 + (filled c20 + (filled c21 + (filled c22 + 0)))))))).
Proof. reflexivity. Qed.

(** The indicator terms of the cells in the context, bounded, and those
    of known pieces evaluated. *)
Ltac cell_bounds :=
  repeat match goal with
    | c : Piece |- _ =>
        lazymatch goal with
        | _ : 0 <= filled c <= 1 |- _ => fail
        | _ => pose proof (holds_bounds O c); pose proof (holds_bounds X c);
               pose proof (filled_bounds c)
        end
    end.

Ltac known_cells :=
  change (holds O O) with 1 in *; change (holds X X) with 1 in *;
  change (holds O X) with 0 in *; change (holds X O) with 0 in *;
  change (holds O B) with 0 in *; change (holds X B) with 0 in *;
  change (filled O) with 1 in *; change (filled X) with 1 in *;
  change (filled B) with 0 in *.

Ltac counters :=
  rewrite ?tracked_shape, ?nonBlank_shape; known_cells; cell_bounds; subst;
  rewrite ?GoInt_incr_small by lia;
  repeat match goal with
    | |- mkCounts _ _ _ = mkCounts _ _ _ => f_equal
    | |- _ :: _ = _ :: _ => f_equal
    end;
  lia.

Lemma placed_Inv g x y :
  Inv g -> inRange x y -> boardGet (board g) x y = Some B ->
  exists g1, placed g x y = Some g1 /\ Inv g1 /\
             currPiece g1 = currPiece g /\
             currPlayer g1 = currPlayer g /\
             nextPlayer g1 = nextPlayer g /\
             totalPieces g1 = totalPieces g + 1.
Proof.
  intros [Hb Hp Ho Hx Ht] [Hx' Hy'] Hc.
  destruct g as [b p cp np oc xc t]. simpl in *.
  apply wfBoard_shape in Hb.
  destruct Hb as (c00 & c01 & c02 & c10 & c11 & c12 & c20 & c21 & c22 & ->).
  rewrite tracked_shape in Ho, Hx. rewrite nonBlank_shape in Ht.
  destruct oc as [[|r0 [|r1 [|r2 [|]]]] [|k0 [|k1 [|k2 [|]]]] [|d0 [|d1 [|]]]];
    try discriminate Ho.
  destruct xc as [[|r0' [|r1' [|r2' [|]]]] [|k0' [|k1' [|k2' [|]]]]
                  [|d0' [|d1' [|]]]];
    try discriminate Hx.
  injection Ho as Er0 Er1 Er2 Ek0 Ek1 Ek2 Ed0 Ed1.
  injection Hx as Er0' Er1' Er2' Ek0' Ek1' Ek2' Ed0' Ed1'.
  apply coord_cases in Hx', Hy'.
  destruct Hx' as [-> | [-> | ->]], Hy' as [-> | [-> | ->]];
    injection Hc as ->; destruct p; try done;
    (eexists; split; [cbv -[GoInt.incr]; reflexivity|]);
    (split; [split; simpl|repeat split; simpl]);
    try done;
    try (split; [reflexivity|by repeat constructor]);
    counters.
Qed.

Lemma turned_Inv g u : Inv g -> Inv (turned g u).
Proof.
  intros [Hb Hp Ho Hx Ht]. split; simpl; try done.
  by destruct (Piece_eqb (currPiece g) O).
Qed.

Lemma afterResult_Inv g u r : Inv g -> Inv (afterResult g u r).
Proof.
  intros Hg. unfold afterResult.
  destruct (GameResult_eqb r Pending); [by apply turned_Inv | done].
Qed.

Lemma placed_wf g x y :
  wfGame g -> inRange x y ->
  exists g1, placed g x y = Some g1 /\ wfGame g1.
Proof.
  intros (Hb & Ho & Hx) [Hx' Hy'].
  destruct g as [b p cp np oc xc t]. simpl in *.
  apply wfBoard_shape in Hb.
  destruct Hb as (c00 & c01 & c02 & c10 & c11 & c12 & c20 & c21 & c22 & ->).
  apply wfCounts_shape in Ho, Hx.
  destruct Ho as (r0 & r1 & r2 & k0 & k1 & k2 & d0 & d1 & ->).
  destruct Hx as (r0' & r1' & r2' & k0' & k1' & k2' & d0' & d1' & ->).
  apply coord_cases in Hx', Hy'.
  destruct Hx' as [-> | [-> | ->]], Hy' as [-> | [-> | ->]]; destruct p;
    (eexists; split; [cbv -[GoInt.incr]; reflexivity|]);
    repeat split; by repeat constructor.
Qed.

Lemma checkGameOver_wf g x y :
  wfGame g -> inRange x y -> exists r, checkGameOver g x y = Some r.
Proof.
  intros (_ & Ho & Hx) [Hx' Hy'].
  destruct g as [b p cp np oc xc t]. simpl in *.
  apply wfCounts_shape in Ho, Hx.
  destruct Ho as (r0 & r1 & r2 & k0 & k1 & k2 & d0 & d1 & ->).
  destruct Hx as (r0' & r1' & r2' & k0' & k1' & k2' & d0' & d1' & ->).
  apply coord_cases in Hx', Hy'.
  unfold checkGameOver.
  destruct Hx' as [-> | [-> | ->]], Hy' as [-> | [-> | ->]]; destruct p;
    simpl;
    match goal with
    | |- context [if ?c then Some _ else None] => destruct c
    end; simpl; try (by eexists);
    match goal with
    | |- context [if ?c then Some Tie else _] => destruct c
    end; by eexists.
Qed.

(** ** Starting a game *)

Lemma initBoard_zero :
  initBoard zeroBoard = Some [[B; B; B]; [B; B; B]; [B; B; B]].
Proof. reflexivity. Qed.

Lemma startGame_eq games userA userB :
  startGame games userA userB =
  Some (<[getUserPairKey userA userB :=
            {| board := [[B; B; B]; [B; B; B]; [B; B; B]]; currPiece := O;
               currPlayer := userA; nextPlayer := "";
               oCounts := zeroCounts; xCounts := zeroCounts;
               totalPieces := 0 |}]> games,
        {| board := [[B; B; B]; [B; B; B]; [B; B; B]]; currPiece := O;
           currPlayer := userA; nextPlayer := "";
           oCounts := zeroCounts; xCounts := zeroCounts;
           totalPieces := 0 |}).
Proof. unfold startGame. by rewrite initBoard_zero. Qed.

Lemma startGame_Inv games games' userA userB g :
  startGame games userA userB = Some (games', g) -> Inv g.
Proof.
  rewrite startGame_eq. intros [= _ <-].
  split; simpl; try done. split; [done | by repeat constructor].
Qed.

(** ** Every call, by cases *)

Lemma makeMove_cases g u x y :
  wfGame g -> MoveCase g u x y (makeMove g u x y).
Proof.
  intros Hg.
  destruct (decide (u = currPlayer g)) as [Hu|Hu];
    [|rewrite makeMove_not_turn by done; by constructor].
  destruct (decide (inRange x y)) as [Hr|Hr];
    [|rewrite makeMove_out_of_range by done; by constructor].
  destruct (boardGet_wf (board g) x y) as [q Hq]; [apply Hg | done |].
  destruct (decide (q = B)) as [->|Hq'];
    [|erewrite makeMove_not_empty by done; by econstructor].
  rewrite makeMove_valid by done.
  destruct (placed_wf g x y) as (g1 & Hg1 & Hwf); [done..|].
  destruct (checkGameOver_wf g1 x y) as [r Hc]; [done..|].
  rewrite Hg1. simpl. rewrite Hc. simpl. by constructor.
Qed.

Lemma makeMove_Inv g u x y g' ret :
  Inv g -> makeMove g u x y = Some (g', ret) -> Inv g'.
Proof.
  intros Hg Hm.
  pose proof (makeMove_cases g u x y (Inv_wfGame g Hg)) as Hc.
  rewrite Hm in Hc. inversion Hc; subst; try done.
  apply afterResult_Inv.
  destruct (placed_Inv g x y) as (g1' & Hp & Hg1 & _); [done..|].
  congruence.
Qed.

Lemma reachable_Inv g : reachable g -> Inv g.
Proof.
  induction 1 as [games games' a b g Hs | g u x y g' ret _ IH Hm].
  - by eapply startGame_Inv.
  - by eapply makeMove_Inv.
Qed.

(** A call on a well-shaped game always returns. *)
Lemma makeMove_returns g u x y :
  wfGame g -> exists g' ret, makeMove g u x y = Some (g', ret).
Proof.
  intros Hg. destruct (makeMove_cases g u x y Hg); by eexists _, _.
Qed.

(** ** Diagonal classification *)

Lemma getDiag_corner x y :
  0 <= getDiag x y <-> (x, y) ∈ corners.
Proof.
  unfold getDiag, corners, boardSize. rewrite !elem_of_cons, elem_of_nil.
  split.
  - repeat case_match; try lia; intros _;
      repeat match goal with
        | H : _ || _ = true |- _ => apply orb_true_iff in H as [H|H]
        | H : _ && _ = true |- _ => apply andb_true_iff in H as [? ?]
        end;
      assert (x = 0 \/ x = 2) as Hx by lia;
      assert (y = 0 \/ y = 2) as Hy by lia;
      destruct Hx as [-> | ->], Hy as [-> | ->]; simpl in *;
      try discriminate; tauto.
  - intros [H | [H | [H | [H | []]]]]; injection H as -> ->; simpl; lia.
Qed.

(** C3: on the centre cell (1,1) of the 3x3 board, where x = y and
    x + y = boardSize - 1, [getDiag] answers -1 (no diagonal). *)
Theorem getDiag_centre :
  inRange 1 1 /\ 1 + 1 = boardSize - 1 /\ getDiag 1 1 = -1.
Proof. by repeat split. Qed.

(** ** startGame *)

(** C4: [startGame] always returns a game with a blank board, zeroed
    counters, piece O to move, [userA] as the current player and no
    pieces placed; the next player is the empty string, whatever
    [userB] is. *)
Theorem startGame_state games userA userB :
  exists games' g,
    startGame games userA userB = Some (games', g) /\
    board g = [[B; B; B]; [B; B; B]; [B; B; B]] /\
    oCounts g = {| rows := [0; 0; 0]; cols := [0; 0; 0]; diags := [0; 0] |} /\
    xCounts g = {| rows := [0; 0; 0]; cols := [0; 0; 0]; diags := [0; 0] |} /\
    currPiece g = O /\ currPlayer g = userA /\ nextPlayer g = "" /\
    totalPieces g = 0.
Proof. rewrite startGame_eq. by eexists _, _. Qed.

Lemma startGame_alice games userB :
  exists games', startGame games "alice" userB = Some (games', aliceGame).
Proof. rewrite startGame_eq. by eexists. Qed.

(** ** Validation *)

(** C5: on a game state of the Go type, [makeMove] returns; it reports
    the not-your-turn error exactly when the user is not the current
    player, otherwise the out-of-range error exactly when x or y is
    outside [0, boardSize), otherwise the not-empty error exactly when
    the cell is not blank, and a nil error exactly when all three checks
    pass; every error comes with [Pending]. *)
Theorem makeMove_validation g u x y :
  wfGame g ->
  exists g' e r,
    makeMove g u x y = Some (g', (e, r)) /\
    (e = Some (ErrNotTurn u) <-> u <> currPlayer g) /\
    (e = Some (ErrOutOfRange x y) <->
       u = currPlayer g /\ ~ inRange x y) /\
    (e = Some (ErrNotEmpty x y) <->
       u = currPlayer g /\ inRange x y /\
       boardGet (board g) x y <> Some B) /\
    (e = None <->
       u = currPlayer g /\ inRange x y /\
       boardGet (board g) x y = Some B) /\
    (e <> None -> r = Pending).
Proof.
  intros Hg.
  destruct (makeMove_cases g u x y Hg)
    as [Hu | Hu Hr | q Hu Hr Hc Hq | g1 r Hu Hr Hc _ _];
    eexists _, _, _; (split; [reflexivity|]);
    repeat split; try done; try tauto; try (intuition congruence);
    unfold inRange in *; lia.
Qed.

Lemma makeMove_validation_witness :
  wfGame aliceGame /\
  exists g' e r,
    makeMove aliceGame "bob" 0 0 = Some (g', (e, r)) /\
    (e = Some (ErrNotTurn "bob") <-> "bob" <> currPlayer aliceGame) /\
    (e = Some (ErrOutOfRange 0 0) <->
       "bob" = currPlayer aliceGame /\ ~ inRange 0 0) /\
    (e = Some (ErrNotEmpty 0 0) <->
       "bob" = currPlayer aliceGame /\ inRange 0 0 /\
       boardGet (board aliceGame) 0 0 <> Some B) /\
    (e = None <->
       "bob" = currPlayer aliceGame /\ inRange 0 0 /\
       boardGet (board aliceGame) 0 0 = Some B) /\
    (e <> None -> r = Pending).
Proof.
  assert (wfGame aliceGame) as Hwf.
  { repeat split; simpl; try reflexivity; repeat constructor. }
  split; [exact Hwf | exact (makeMove_validation aliceGame "bob" 0 0 Hwf)].
Defined.

(** C6: a call of [makeMove] that returns an error leaves the game state
    (board, both players' counters, total, current piece, current and
    next player) exactly as it was. *)
Theorem makeMove_error_unchanged g u x y g' e r :
  makeMove g u x y = Some (g', (Some e, r)) -> g' = g.
Proof.
  unfold makeMove. intros H.
  destruct (negb (String.eqb _ _)); [by simplify_eq|].
  destruct (_ || _); [by simplify_eq|].
  destruct (boardGet _ _ _) as [cell|]; simpl in H; [|done].
  destruct (negb (Piece_eqb cell B)); [by simplify_eq|].
  destruct (boardSet _ _ _ _) as [b'|]; simpl in H; [|done].
  destruct (Piece_eqb (currPiece g) O);
    (destruct (countPiece _ _ _) as [c|]; simpl in H; [|done]);
    (destruct (checkGameOver _ _ _) as [res|]; simpl in H; [|done]);
    by destruct (negb _).
Qed.

Lemma makeMove_error_unchanged_witness :
  makeMove aliceGame "alice" 3 0 =
    Some (aliceGame, (Some (ErrOutOfRange 3 0), Pending)) /\
  aliceGame = aliceGame.
Proof.
  assert (makeMove aliceGame "alice" 3 0 =
            Some (aliceGame, (Some (ErrOutOfRange 3 0), Pending))) as H
    by reflexivity.
  split; [exact H | exact (makeMove_error_unchanged _ _ _ _ _ _ _ H)].
Defined.

(** ** The win check, branch by branch *)

Lemma checkGameOver_first g x y dw rw cw :
  currPiece g = O ->
  diagWin (oCounts g) x y = Some dw ->
  rowWin (oCounts g) x = Some rw ->
  colWin (oCounts g) y = Some cw ->
  checkGameOver g x y =
  Some (if dw || rw || cw then OWin
        else if totalPieces g =? boardSize * boardSize then Tie
        else Pending).
Proof.
  intros Hp Hd Hr Hc. unfold checkGameOver.
  rewrite Hp, Hd, Hr, Hc. simpl.
  destruct (dw || rw || cw); simpl; [done|]. by case_match.
Qed.

Lemma checkGameOver_second g x y dw rw cw :
  currPiece g <> O ->
  diagWin (xCounts g) x y = Some dw ->
  rowWin (xCounts g) x = Some rw ->
  colWin (xCounts g) x = Some cw ->
  checkGameOver g x y =
  Some (if dw || rw || cw then XWin
        else if totalPieces g =? boardSize * boardSize then Tie
        else Pending).
Proof.
  intros Hp Hd Hr Hc. unfold checkGameOver.
  destruct (Piece_eqb (currPiece g) O) eqn:E;
    [by apply Piece_eqb_eq in E|].
  rewrite Hd, Hr, Hc. simpl.
  destruct (dw || rw || cw); simpl; [done|]. by case_match.
Qed.

Lemma checkGameOver_OWin g x y :
  checkGameOver g x y = Some OWin ->
  currPiece g = O /\
  (diagWin (oCounts g) x y = Some true \/
   rowWin (oCounts g) x = Some true \/
   colWin (oCounts g) y = Some true).
Proof.
  unfold checkGameOver.
  destruct (Piece_eqb (currPiece g) O) eqn:E.
  - apply Piece_eqb_eq in E.
    destruct (diagWin _ _ _) as [[]|], (rowWin _ _) as [[]|],
      (colWin _ _) as [[]|]; simpl; try case_match; try done; auto.
  - destruct (diagWin _ _ _) as [[]|], (rowWin _ _) as [[]|],
      (colWin _ _) as [[]|]; simpl; try case_match; done.
Qed.

Lemma checkGameOver_XWin g x y :
  checkGameOver g x y = Some XWin ->
  currPiece g <> O /\
  (diagWin (xCounts g) x y = Some true \/
   rowWin (xCounts g) x = Some true \/
   colWin (xCounts g) x = Some true).
Proof.
  unfold checkGameOver.
  destruct (Piece_eqb (currPiece g) O) eqn:E.
  - destruct (diagWin _ _ _) as [[]|], (rowWin _ _) as [[]|],
      (colWin _ _) as [[]|]; simpl; try case_match; done.
  - assert (currPiece g <> O) by (intros Hp; rewrite Hp in E; done).
    destruct (diagWin _ _ _) as [[]|], (rowWin _ _) as [[]|],
      (colWin _ _) as [[]|]; simpl; try case_match; try done; auto.
Qed.

(** ** Pieces placed *)

Lemma nonBlank_le b : wfBoard b -> nonBlank b <= boardSize * boardSize.
Proof.
  intros Hb. apply wfBoard_shape in Hb.
  destruct Hb as (c00 & c01 & c02 & c10 & c11 & c12 & c20 & c21 & c22 & ->).
  rewrite nonBlank_shape. cell_bounds. unfold boardSize. lia.
Qed.

Lemma makeMove_total g u x y g' ret :
  Inv g -> makeMove g u x y = Some (g', ret) ->
  totalPieces g' = totalPieces g + Z.of_nat (succeeded [ret]).
Proof.
  intros Hg Hm.
  pose proof (makeMove_cases g u x y (Inv_wfGame g Hg)) as Hc.
  rewrite Hm in Hc. inversion Hc; subst; try (unfold succeeded; simpl; lia).
  destruct (placed_Inv g x y) as (g1' & Hp & _ & _ & _ & _ & Ht); [done..|].
  assert (g1' = g1) as -> by congruence.
  unfold afterResult, succeeded.
  destruct (GameResult_eqb r Pending); simpl; lia.
Qed.

Lemma succeeded_cons ret rets :
  Z.of_nat (succeeded (ret :: rets)) =
  Z.of_nat (succeeded [ret]) + Z.of_nat (succeeded rets).
Proof. unfold succeeded. simpl. destruct (isNil ret); simpl; lia. Qed.

Lemma play_Inv calls : forall g,
  Inv g ->
  exists g' rets,
    play g calls = Some (g', rets) /\ Inv g' /\
    totalPieces g' = totalPieces g + Z.of_nat (succeeded rets).
Proof.
  induction calls as [|c calls IH]; intros g Hg.
  - exists g, []. unfold succeeded. simpl. split_and!; try done. lia.
  - destruct (makeMove_returns g (mover c) (cx c) (cy c))
      as (g1 & ret & Hm); [by apply Inv_wfGame|].
    pose proof (makeMove_Inv _ _ _ _ _ _ Hg Hm) as Hg1.
    destruct (IH g1 Hg1) as (g' & rets & Hp & Hg' & Ht).
    exists g', (ret :: rets). simpl. rewrite Hm. simpl. rewrite Hp. simpl.
    split_and!; try done.
    rewrite succeeded_cons, Ht, (makeMove_total _ _ _ _ _ _ Hg Hm). lia.
Qed.

(** C7: whatever calls of [makeMove] follow [startGame], they all
    return, and afterwards [totalPieces] is the number of calls that
    returned a nil error, is the number of non-blank cells of the board,
    and is at most boardSize * boardSize. *)
Theorem totalPieces_counts_moves games userA userB calls :
  exists games' g0 g rets,
    startGame games userA userB = Some (games', g0) /\
    play g0 calls = Some (g, rets) /\
    totalPieces g = Z.of_nat (succeeded rets) /\
    totalPieces g = nonBlank (board g) /\
    totalPieces g <= boardSize * boardSize.
Proof.
  destruct (startGame games userA userB) as [[games' g0]|] eqn:Hs;
    [|by rewrite startGame_eq in Hs].
  destruct (play_Inv calls g0) as (g & rets & Hp & Hg & Ht);
    [by eapply startGame_Inv|].
  exists games', g0, g, rets. split_and!; try done.
  - rewrite Ht. rewrite startGame_eq in Hs. by simplify_eq.
  - apply Hg.
  - rewrite (inv_total g Hg). apply nonBlank_le, Hg.
Qed.

(** ** Diagonal counters *)

Lemma Inv_diags g :
  Inv g ->
  exists a b a' b',
    diags (oCounts g) = [a; b] /\ diags (xCounts g) = [a'; b'] /\
    0 <= a <= 2 /\ 0 <= b <= 2 /\ 0 <= a' <= 2 /\ 0 <= b' <= 2.
Proof.
  intros [Hb _ Ho Hx _]. apply wfBoard_shape in Hb.
  destruct Hb as (c00 & c01 & c02 & c10 & c11 & c12 & c20 & c21 & c22 & Hb).
  rewrite Ho, Hx, Hb, !tracked_shape. simpl.
  eexists _, _, _, _. split_and!; try reflexivity; cell_bounds; lia.
Qed.

Lemma Inv_diagWin g x y :
  Inv g ->
  diagWin (oCounts g) x y = Some false /\
  diagWin (xCounts g) x y = Some false.
Proof.
  intros Hg.
  destruct (Inv_diags g Hg) as (a & b & a' & b' & Ho & Hx & Ha & Hb & Ha' & Hb').
  unfold diagWin. rewrite Ho, Hx. unfold getDiag, boardSize.
  repeat case_match; simpl; try done; try lia;
    split; f_equal; lia.
Qed.

Lemma countPiece_diags c x y c' :
  countPiece c x y = Some c' -> (x, y) ∉ corners -> diags c' = diags c.
Proof.
  intros Hc Hxy. rewrite <- getDiag_corner in Hxy.
  unfold countPiece in Hc.
  destruct (Arr.incr (rows c) x); simpl in Hc; [|done].
  destruct (Arr.incr (cols c) y); simpl in Hc; [|done].
  destruct (getDiag x y >=? 0) eqn:E; [lia|].
  simpl in Hc. by simplify_eq.
Qed.

Lemma placed_diags g x y g1 :
  placed g x y = Some g1 -> (x, y) ∉ corners ->
  diags (oCounts g1) = diags (oCounts g) /\
  diags (xCounts g1) = diags (xCounts g).
Proof.
  unfold placed. intros Hp Hxy.
  destruct (boardSet _ _ _ _); simpl in Hp; [|done].
  destruct (Piece_eqb (currPiece g) O);
    (destruct (countPiece _ x y) as [c|] eqn:Hc; simpl in Hp; [|done]);
    simplify_eq; simpl; split; try done;
    by eapply countPiece_diags.
Qed.

Lemma afterResult_counts g u r :
  oCounts (afterResult g u r) = oCounts g /\
  xCounts (afterResult g u r) = xCounts g.
Proof. unfold afterResult. by destruct (GameResult_eqb r Pending). Qed.

Lemma afterResult_win g u r :
  r <> Pending -> afterResult g u r = g.
Proof. unfold afterResult. by destruct r. Qed.

Lemma play_reachable calls : forall g g' rets,
  reachable g -> play g calls = Some (g', rets) -> reachable g'.
Proof.
  induction calls as [|c calls IH]; intros g g' rets Hg Hp; simpl in Hp.
  - by simplify_eq.
  - destruct (makeMove g (mover c) (cx c) (cy c)) as [[g1 ret]|] eqn:Hm;
      simpl in Hp; [|done].
    destruct (play g1 calls) as [[g2 rets']|] eqn:Hp'; simpl in Hp; [|done].
    simplify_eq. eapply IH; [|done]. by eapply reach_move.
Qed.

(** C10: in a state reached from [startGame], a call of [makeMove] leaves
    both players' diagonal counters as they were unless (x,y) is one of
    the corners (0,0), (2,2), (2,0), (0,2); no diagonal counter exceeds
    2, before or after the call; the diagonal condition of the win check
    is false for both players; and a win that is returned comes from the
    row or the column condition. *)
Theorem diagonal_never_wins g u x y g' e r :
  reachable g ->
  makeMove g u x y = Some (g', (e, r)) ->
  ((x, y) ∈ corners \/
   (diags (oCounts g') = diags (oCounts g) /\
    diags (xCounts g') = diags (xCounts g))) /\
  Forall (fun d => d <= 2) (diags (oCounts g) ++ diags (xCounts g)) /\
  Forall (fun d => d <= 2) (diags (oCounts g') ++ diags (xCounts g')) /\
  diagWin (oCounts g') x y = Some false /\
  diagWin (xCounts g') x y = Some false /\
  match r with
  | OWin => rowWin (oCounts g') x = Some true \/
            colWin (oCounts g') y = Some true
  | XWin => rowWin (xCounts g') x = Some true \/
            colWin (xCounts g') x = Some true
  | Tie | Pending => True
  end.
Proof.
  intros Hreach Hm.
  pose proof (reachable_Inv g Hreach) as Hg.
  pose proof (makeMove_Inv _ _ _ _ _ _ Hg Hm) as Hg'.
  assert (forall h, Inv h ->
            Forall (fun d => d <= 2) (diags (oCounts h) ++ diags (xCounts h)))
    as Hle.
  { intros h Hh.
    destruct (Inv_diags h Hh) as (a & b & a' & b' & -> & -> & ?).
    repeat constructor; lia. }
  destruct (Inv_diagWin g' x y Hg') as [Hdo Hdx].
  split_and!; auto.
  - destruct (decide ((x, y) ∈ corners)) as [|Hxy]; [by left | right].
    pose proof (makeMove_cases g u x y (Inv_wfGame g Hg)) as Hc.
    rewrite Hm in Hc. inversion Hc; subst; try done.
    destruct (afterResult_counts g1 (currPlayer g) r) as [-> ->].
    by eapply placed_diags.
  - pose proof (makeMove_cases g u x y (Inv_wfGame g Hg)) as Hc.
    rewrite Hm in Hc. inversion Hc as [| | |g1 r' Hu Hr Hcell Hp Hk]; subst;
      try done.
    destruct r; try done; rewrite afterResult_win in * by done.
    + apply checkGameOver_OWin in Hk as [_ [Hk | Hk]]; [congruence | done].
    + apply checkGameOver_XWin in Hk as [_ [Hk | Hk]]; [congruence | done].
Qed.

Lemma nearWin_reachable : reachable nearWin.
Proof.
  eapply (play_reachable (take 4 (scenario "alice" "")) aliceGame).
  - eapply (reach_start ∅ _ "alice" "bob"), startGame_eq.
  - reflexivity.
Qed.

Lemma diagonal_never_wins_witness :
  reachable nearWin /\
  makeMove nearWin "alice" 0 2 = Some (rowWon, (None, OWin)) /\
  ((0, 2) ∈ corners \/
   (diags (oCounts rowWon) = diags (oCounts nearWin) /\
    diags (xCounts rowWon) = diags (xCounts nearWin))) /\
  Forall (fun d => d <= 2) (diags (oCounts nearWin) ++ diags (xCounts nearWin)) /\
  Forall (fun d => d <= 2) (diags (oCounts rowWon) ++ diags (xCounts rowWon)) /\
  diagWin (oCounts rowWon) 0 2 = Some false /\
  diagWin (xCounts rowWon) 0 2 = Some false /\
  (rowWin (oCounts rowWon) 0 = Some true \/
   colWin (oCounts rowWon) 2 = Some true).
Proof.
  assert (makeMove nearWin "alice" 0 2 = Some (rowWon, (None, OWin))) as Hm
    by reflexivity.
  split; [exact nearWin_reachable|]. split; [exact Hm|].
  exact (diagonal_never_wins _ _ _ _ _ _ _ nearWin_reachable Hm).
Defined.

(** ** Reported wins are lines on the board *)

Lemma holds_one p q : holds p q = 1 -> Piece_eqb q p = true.
Proof. unfold holds. by destruct (Piece_eqb q p). Qed.

Lemma scanWins_line p b line :
  In line allLines -> forallb (ownsCell p b) line = true ->
  scanWins p b = true.
Proof. intros Hin Hl. apply existsb_exists. by exists line. Qed.

Lemma Arr_get_three {A} (a0 a1 a2 : A) i v :
  Arr.get [a0; a1; a2] i = Some v ->
  i = 0 /\ v = a0 \/ i = 1 /\ v = a1 \/ i = 2 /\ v = a2.
Proof.
  unfold Arr.get. destruct (i <? 0) eqn:E; [done|].
  destruct (Z.to_nat i) as [|[|[|n]]] eqn:Hn; simpl; intros [= <-];
    [left | right; left | right; right]; split; try done; lia.
Qed.

Ltac line_bounds p :=
  repeat match goal with
    | c : Piece |- _ =>
        lazymatch goal with
        | _ : 0 <= holds p c <= 1 |- _ => fail
        | _ => pose proof (holds_bounds p c)
        end
    end.

Lemma tracked_row_full p b x :
  wfBoard b -> rowWin (tracked p b) x = Some true -> scanWins p b = true.
Proof.
  intros Hb. apply wfBoard_shape in Hb.
  destruct Hb as (c00 & c01 & c02 & c10 & c11 & c12 & c20 & c21 & c22 & ->).
  rewrite tracked_shape. unfold rowWin. simpl.
  destruct (Arr.get _ x) as [v|] eqn:Hv; simpl; [|done].
  intros [= Hfull]. apply Z.eqb_eq in Hfull. unfold boardSize in Hfull.
  line_bounds p.
  apply Arr_get_three in Hv as [[-> ->] | [[-> ->] | [-> ->]]].
  - apply (scanWins_line p _ [(0, 0); (0, 1); (0, 2)]);
      [vm_compute; tauto|].
    unfold ownsCell. simpl. rewrite !holds_one by lia. done.
  - apply (scanWins_line p _ [(1, 0); (1, 1); (1, 2)]);
      [vm_compute; tauto|].
    unfold ownsCell. simpl. rewrite !holds_one by lia. done.
  - apply (scanWins_line p _ [(2, 0); (2, 1); (2, 2)]);
      [vm_compute; tauto|].
    unfold ownsCell. simpl. rewrite !holds_one by lia. done.
Qed.

Lemma tracked_col_full p b y :
  wfBoard b -> colWin (tracked p b) y = Some true -> scanWins p b = true.
Proof.
  intros Hb. apply wfBoard_shape in Hb.
  destruct Hb as (c00 & c01 & c02 & c10 & c11 & c12 & c20 & c21 & c22 & ->).
  rewrite tracked_shape. unfold colWin. simpl.
  destruct (Arr.get _ y) as [v|] eqn:Hv; simpl; [|done].
  intros [= Hfull]. apply Z.eqb_eq in Hfull. unfold boardSize in Hfull.
  line_bounds p.
  apply Arr_get_three in Hv as [[-> ->] | [[-> ->] | [-> ->]]].
  - apply (scanWins_line p _ [(0, 0); (1, 0); (2, 0)]);
      [vm_compute; tauto|].
    unfold ownsCell. simpl. rewrite !holds_one by lia. done.
  - apply (scanWins_line p _ [(0, 1); (1, 1); (2, 1)]);
      [vm_compute; tauto|].
    unfold ownsCell. simpl. rewrite !holds_one by lia. done.
  - apply (scanWins_line p _ [(0, 2); (1, 2); (2, 2)]);
      [vm_compute; tauto|].
    unfold ownsCell. simpl. rewrite !holds_one by lia. done.
Qed.

(** The counters never report a line that is not on the board: when a
    call in a reachable state returns a win, the full-board scan finds a
    line of the winner's piece. *)
Lemma win_sound g u x y g' e r p :
  reachable g -> makeMove g u x y = Some (g', (e, r)) ->
  winnerOf r = Some p -> scanWins p (board g') = true.
Proof.
  intros Hreach Hm Hw.
  pose proof (reachable_Inv g Hreach) as Hg.
  pose proof (makeMove_Inv _ _ _ _ _ _ Hg Hm) as Hg'.
  destruct (Inv_diagWin g' x y Hg') as [Hdo Hdx].
  pose proof (makeMove_cases g u x y (Inv_wfGame g Hg)) as Hc.
  rewrite Hm in Hc. inversion Hc as [| | |g1 r' Hu Hr Hcell Hp Hk]; subst;
    try done.
  destruct r; try done; simpl in Hw; injection Hw as <-;
    rewrite afterResult_win in * by done.
  - apply checkGameOver_OWin in Hk as [_ [Hk | [Hk | Hk]]]; [congruence | |];
      rewrite (inv_o _ Hg') in Hk;
      [eapply tracked_row_full | eapply tracked_col_full]; try done;
      apply Hg'.
  - apply checkGameOver_XWin in Hk as [_ [Hk | [Hk | Hk]]]; [congruence | |];
      rewrite (inv_x _ Hg') in Hk;
      [eapply tracked_row_full | eapply tracked_col_full]; try done;
      apply Hg'.
Qed.

Lemma checkGameOver_Pending g x y :
  checkGameOver g x y = Some Pending ->
  totalPieces g <> boardSize * boardSize.
Proof.
  unfold checkGameOver. intros H Ht. apply Z.eqb_eq in Ht. rewrite Ht in H.
  destruct (Piece_eqb (currPiece g) O);
    destruct (diagWin _ _ _) as [[]|], (rowWin _ _) as [[]|],
      (colWin _ _) as [[]|]; simpl in H; done.
Qed.

(** The move that puts the last piece on a board without a line of
    either player returns [Tie]. *)
Lemma tie_without_line g u x y g' r :
  reachable g -> makeMove g u x y = Some (g', (None, r)) ->
  totalPieces g' = boardSize * boardSize ->
  scanWinner (board g') = None ->
  r = Tie.
Proof.
  intros Hreach Hm Ht Hscan.
  assert (forall p, winnerOf r = Some p -> scanWins p (board g') = true)
    as Hw by (intros p; by eapply win_sound).
  unfold scanWinner in Hscan.
  destruct r; try done.
  - rewrite (Hw O) in Hscan by done. done.
  - destruct (scanWins O (board g')); [done|].
    rewrite (Hw X) in Hscan by done. done.
  - pose proof (reachable_Inv g Hreach) as Hg.
    pose proof (makeMove_cases g u x y (Inv_wfGame g Hg)) as Hc.
    rewrite Hm in Hc. inversion Hc as [| | |g1 r' Hu Hr Hcell Hp Hk]; subst.
    apply checkGameOver_Pending in Hk. done.
Qed.

(** ** The sample games, evaluated *)

(** C1: the second player's branch of [checkGameOver] reads [cols[x]].
    When X places the third piece of the cells with y = 0 at (2,0), X's
    column counter for y = 0 is boardSize, yet the check reads the
    counter for index 2, answers [Pending], and the game goes on. *)
Theorem second_player_column_unseen :
  exists games' g0 g5 rets g1,
    startGame ∅ "alice" "bob" = Some (games', g0) /\
    play g0 (take 5 columnGame) = Some (g5, rets) /\
    placed g5 2 0 = Some g1 /\
    currPiece g1 = X /\
    Arr.get (cols (xCounts g1)) 0 = Some boardSize /\
    colWin (xCounts g1) 0 = Some true /\
    colWin (xCounts g1) 2 = Some false /\
    checkGameOver g1 2 0 = Some Pending /\
    makeMove g5 "" 2 0 = Some (turned g1 "", (None, Pending)).
Proof.
  rewrite startGame_eq. eexists _, _, _, _, _.
  split; [reflexivity|]. split; [vm_compute; reflexivity|].
  split; [vm_compute; reflexivity|]. by vm_compute.
Qed.

(** The same branch also answers [XWin] for a piece that completes
    nothing: after [columnGame] and O at (1,2), X at (0,2) wins because
    [cols[0]] is read for x = 0. *)
Lemma second_player_column_misread :
  exists g g1,
    play aliceGame (columnGame ++ [mkCall "alice" 1 2]) =
      Some (g, replicate 7 (None, Pending)) /\
    makeMove g "" 0 2 = Some (g1, (None, XWin)) /\
    rowWin (xCounts g1) 0 = Some false /\
    colWin (xCounts g1) 2 = Some false /\
    diagWin (xCounts g1) 0 2 = Some false /\
    colWin (xCounts g1) 0 = Some true.
Proof. eexists _, _. split; [vm_compute; reflexivity|]. by vm_compute. Qed.

(** C2: after the five successful moves of [diagonalGame] O holds the
    main diagonal (0,0), (1,1), (2,2) and the full-board scan names O
    the winner, while every call, the last included, returned
    [Pending]. *)
Theorem diagonal_line_unseen :
  exists games' g0 g rets,
    startGame ∅ "alice" "bob" = Some (games', g0) /\
    play g0 diagonalGame = Some (g, rets) /\
    rets = replicate 5 (None, Pending) /\
    board g = [[O; X; X]; [B; O; B]; [B; B; O]] /\
    scanWinner (board g) = Some O /\
    last (map (fun ret => winnerOf (snd ret)) rets) = Some None.
Proof.
  rewrite startGame_eq. eexists _, _, _, _.
  split; [reflexivity|]. split; [vm_compute; reflexivity|]. by vm_compute.
Qed.

(** C8: in [fullBoardGame] the ninth piece, O at the centre, fills the
    board and completes both diagonals for O; the call returns [Tie]. *)
Theorem full_board_diagonal_tie :
  exists games' g0 g rets,
    startGame ∅ "alice" "bob" = Some (games', g0) /\
    play g0 fullBoardGame = Some (g, rets) /\
    rets = replicate 8 (None, Pending) ++ [(None, Tie)] /\
    board g = [[O; X; O]; [X; O; X]; [O; X; O]] /\
    totalPieces g = boardSize * boardSize /\
    scanWinner (board g) = Some O.
Proof.
  rewrite startGame_eq. eexists _, _, _, _.
  split; [reflexivity|]. split; [vm_compute; reflexivity|]. by vm_compute.
Qed.

(** C9: with the players "alice" and "bob", the first move of the
    scenario succeeds and every later one is refused with the
    not-your-turn error: the turn has passed to the player named by the
    empty string.  The board ends with the single piece at (0,0). *)
Theorem scenario_moves_refused :
  exists games' g0 g,
    startGame ∅ "alice" "bob" = Some (games', g0) /\
    play g0 (scenario "alice" "bob") =
      Some (g, [(None, Pending);
                (Some (ErrNotTurn "bob"), Pending);
                (Some (ErrNotTurn "alice"), Pending);
                (Some (ErrNotTurn "bob"), Pending);
                (Some (ErrNotTurn "alice"), Pending)]) /\
    board g = [[O; B; B]; [B; B; B]; [B; B; B]] /\
    currPlayer g = "" /\ nextPlayer g = "alice".
Proof.
  rewrite startGame_eq. eexists _, _, _.
  split; [reflexivity|]. split; [vm_compute; reflexivity|]. by vm_compute.
Qed.

(** With the second player named by the empty string the scenario runs
    as described: five successful moves, the fifth returning [OWin]. *)
Lemma scenario_unnamed_second :
  exists games' g0 g,
    startGame ∅ "alice" "" = Some (games', g0) /\
    play g0 (scenario "alice" "") =
      Some (g, replicate 4 (None, Pending) ++ [(None, OWin)]) /\
    board g = [[O; O; O]; [X; X; B]; [B; B; B]].
Proof.
  rewrite startGame_eq. eexists _, _, _.
  split; [reflexivity|]. split; [vm_compute; reflexivity|]. by vm_compute.
Qed.

(** * Further properties *)

(** ** The key of a user pair *)

(** X1: the key does not depend on the order in which the two users are
    given. *)
Theorem getUserPairKey_sym userA userB :
  getUserPairKey userA userB = getUserPairKey userB userA.
Proof.
  unfold getUserPairKey.
  destruct (String.leb userA userB) eqn:Hab, (String.leb userB userA) eqn:Hba;
    try done.
  - by rewrite (String.leb_antisym _ _ Hab Hba).
  - destruct (String.leb_total userA userB); congruence.
Qed.

Lemma key_split a : forall b c d,
  noDollar a = true -> noDollar c = true ->
  a +:+ "$$" +:+ b = c +:+ "$$" +:+ d -> a = c /\ b = d.
Proof.
  induction a as [|x a IH]; intros b [|y c] d Ha Hc Heq; simpl in *.
  - by simplify_eq.
  - injection Heq as <- _. by rewrite Ascii.eqb_refl in Hc.
  - injection Heq as -> _. by rewrite Ascii.eqb_refl in Ha.
  - injection Heq as -> Heq.
    apply andb_true_iff in Ha as [_ Ha], Hc as [_ Hc].
    destruct (IH b c d Ha Hc Heq) as [-> ->]. done.
Qed.

(** X2: for names without a dollar sign, two pairs of users have the same
    key only when they are the same pair, in either order. *)
Theorem getUserPairKey_inj a b c d :
  noDollar a = true -> noDollar b = true ->
  noDollar c = true -> noDollar d = true ->
  getUserPairKey a b = getUserPairKey c d ->
  (a = c /\ b = d) \/ (a = d /\ b = c).
Proof.
  intros Ha Hb Hc Hd. unfold getUserPairKey.
  destruct (String.leb a b), (String.leb c d); intros Heq;
    apply key_split in Heq as [-> ->]; auto.
Qed.

Lemma getUserPairKey_inj_witness :
  getUserPairKey "alice" "bob" = getUserPairKey "bob" "alice" /\
  (("alice" = "bob" /\ "bob" = "alice") \/
   ("alice" = "alice" /\ "bob" = "bob")).
Proof.
  split; [reflexivity|].
  exact (getUserPairKey_inj "alice" "bob" "bob" "alice"
           eq_refl eq_refl eq_refl eq_refl eq_refl).
Defined.

Lemma append_assoc (a b c : string) : (a +:+ b) +:+ c = a +:+ (b +:+ c).
Proof.
  induction a as [|x a IH]; [reflexivity|].
  change (String x ((a +:+ b) +:+ c) = String x (a +:+ (b +:+ c))).
  by rewrite IH.
Qed.

(** X3: names that contain the separator can make different pairs share
    a key: the pair (u$$v, w) and the pair (u, v$$w), each given in
    ascending order, have the same key. *)
Theorem getUserPairKey_collision u v w :
  String.leb (u +:+ "$$" +:+ v) w = true ->
  String.leb u (v +:+ "$$" +:+ w) = true ->
  getUserPairKey (u +:+ "$$" +:+ v) w = getUserPairKey u (v +:+ "$$" +:+ w).
Proof.
  intros H1 H2. unfold getUserPairKey. rewrite H1, H2.
  by rewrite !append_assoc.
Qed.

Lemma getUserPairKey_collision_witness :
  getUserPairKey "a$$b" "c" = getUserPairKey "a" "b$$c".
Proof.
  exact (getUserPairKey_collision "a" "b" "c" eq_refl eq_refl).
Defined.

(** ** The registry *)



(** X6: [clearGame] undoes [startGame]: when the pair had no game, the
    registry after starting and clearing, with the names in either order,
    is the registry before. *)
Theorem clearGame_startGame games userA userB games' g :
  games !! getUserPairKey userA userB = None ->
  startGame games userA userB = Some (games', g) ->
  clearGame games' userA userB = games /\
  clearGame games' userB userA = games.
Proof.
  rewrite startGame_eq. intros Hnone [= <- _]. unfold clearGame.
  rewrite <- (getUserPairKey_sym userA userB), delete_insert_eq.
  by rewrite delete_id.
Qed.

Lemma clearGame_startGame_witness :
  clearGame (<[getUserPairKey "alice" "bob" := aliceGame]> ∅) "alice" "bob"
    = ∅ /\
  clearGame (<[getUserPairKey "alice" "bob" := aliceGame]> ∅) "bob" "alice"
    = ∅.
Proof.
  exact (clearGame_startGame ∅ "alice" "bob" _ aliceGame
           (lookup_empty _) (startGame_eq ∅ "alice" "bob")).
Defined.

(** X7: [clearGame] removes the pair's game and no other: afterwards the
    pair's key is free, every other key holds what it held, and clearing
    a pair that has no game changes nothing. *)
Theorem clearGame_lookup games userA userB :
  clearGame games userA userB !! getUserPairKey userA userB = None /\
  (forall key, key <> getUserPairKey userA userB ->
               clearGame games userA userB !! key = games !! key) /\
  (games !! getUserPairKey userA userB = None ->
   clearGame games userA userB = games).
Proof.
  unfold clearGame. split_and!.
  - apply lookup_delete_eq.
  - intros key Hk. by apply lookup_delete_ne.
  - apply delete_id.
Qed.

(** ** initBoard *)

(** X8: [initBoard] blanks every cell of a board, whatever it held. *)
Theorem initBoard_blank b :
  wfBoard b -> initBoard b = Some [[B; B; B]; [B; B; B]; [B; B; B]].
Proof.
  intros Hb. apply wfBoard_shape in Hb.
  by destruct Hb as (c00 & c01 & c02 & c10 & c11 & c12 & c20 & c21 & c22 & ->).
Qed.

Lemma initBoard_blank_witness :
  wfBoard [[O; X; O]; [X; O; X]; [O; X; O]] /\
  initBoard [[O; X; O]; [X; O; X]; [O; X; O]] =
    Some [[B; B; B]; [B; B; B]; [B; B; B]].
Proof.
  assert (wfBoard [[O; X; O]; [X; O; X]; [O; X; O]]) as Hb
    by (split; [reflexivity | repeat constructor]).
  exact (conj Hb (initBoard_blank _ Hb)).
Defined.

(** ** What a successful move changes *)

Lemma makeMove_success g u x y g' r :
  makeMove g u x y = Some (g', (None, r)) ->
  u = currPlayer g /\ inRange x y /\ boardGet (board g) x y = Some B /\
  exists g1, placed g x y = Some g1 /\ checkGameOver g1 x y = Some r /\
             g' = afterResult g1 u r.
Proof.
  intros Hm.
  destruct (decide (u = currPlayer g)) as [Hu|Hu];
    [|by rewrite makeMove_not_turn in Hm].
  destruct (decide (inRange x y)) as [Hr|Hr];
    [|by rewrite makeMove_out_of_range in Hm].
  destruct (boardGet (board g) x y) as [q|] eqn:Hq.
  - destruct (decide (q = B)) as [->|Hq'];
      [|by erewrite makeMove_not_empty in Hm].
    rewrite makeMove_valid in Hm by done.
    destruct (placed g x y) as [g1|]; simpl in Hm; [|done].
    destruct (checkGameOver g1 x y) as [r'|] eqn:Hk; simpl in Hm; [|done].
    simplify_eq. split_and!; try done. by exists g1.
  - unfold makeMove in Hm. subst u. rewrite String.eqb_refl in Hm.
    apply range_check_false in Hr. simpl in Hm. rewrite Hr, Hq in Hm. done.
Qed.

Lemma Arr_get_set {A} (a a' : list A) i j v :
  Arr.set a i v = Some a' ->
  Arr.get a' j = if decide (j = i) then Some v else Arr.get a j.
Proof.
  unfold Arr.set, Arr.get.
  destruct ((i <? 0) || (Z.of_nat (length a) <=? i)) eqn:E; [done|].
  intros [= <-]. apply orb_false_iff in E as [Hi Hlen].
  case_decide as Hj.
  - subst j. rewrite Hi. apply list_lookup_insert_eq. lia.
  - destruct (j <? 0) eqn:Ej; [done|].
    apply list_lookup_insert_ne. lia.
Qed.

Lemma boardGet_boardSet b x y p b' x' y' :
  boardSet b x y p = Some b' ->
  boardGet b' x' y' =
    if decide (x' = x /\ y' = y) then Some p else boardGet b x' y'.
Proof.
  unfold boardSet, boardGet. intros Hs.
  destruct (Arr.get b x) as [row|] eqn:Hrow; simpl in Hs; [|done].
  destruct (Arr.set row y p) as [row'|] eqn:Hrow'; simpl in Hs; [|done].
  rewrite (Arr_get_set _ _ _ x' _ Hs).
  destruct (decide (x' = x)) as [->|Hx]; simpl.
  - rewrite (Arr_get_set _ _ _ y' _ Hrow'), Hrow. simpl.
    destruct (decide (y' = y)) as [->|Hy]; case_decide; try done; tauto.
  - case_decide; [tauto | done].
Qed.

Lemma placed_board g x y g1 :
  placed g x y = Some g1 ->
  boardSet (board g) x y (currPiece g) = Some (board g1) /\
  currPiece g1 = currPiece g /\ currPlayer g1 = currPlayer g /\
  nextPlayer g1 = nextPlayer g.
Proof.
  unfold placed. intros Hp.
  destruct (boardSet _ _ _ _) as [b'|]; simpl in Hp; [|done].
  destruct (Piece_eqb (currPiece g) O);
    (destruct (countPiece _ x y) as [c|]; simpl in Hp; [|done]);
    by simplify_eq.
Qed.

Lemma afterResult_board g u r : board (afterResult g u r) = board g.
Proof. unfold afterResult. by destruct (GameResult_eqb r Pending). Qed.

(** X9: a successful move puts the current piece on cell (x,y), which was
    blank, and changes no other cell of the board. *)
Theorem makeMove_board g u x y g' r :
  makeMove g u x y = Some (g', (None, r)) ->
  boardGet (board g) x y = Some B /\
  boardGet (board g') x y = Some (currPiece g) /\
  forall x' y', (x', y') <> (x, y) ->
                boardGet (board g') x' y' = boardGet (board g) x' y'.
Proof.
  intros Hm.
  apply makeMove_success in Hm as (_ & _ & Hc & g1 & Hp & _ & ->).
  apply placed_board in Hp as (Hs & _).
  rewrite afterResult_board. split_and!; [done | |].
  - rewrite (boardGet_boardSet _ _ _ _ _ x y Hs). by rewrite decide_True.
  - intros x' y' Hne. rewrite (boardGet_boardSet _ _ _ _ _ x' y' Hs).
    rewrite decide_False; [done|]. intros [-> ->]. done.
Qed.

Lemma makeMove_board_witness :
  makeMove nearWin "alice" 0 2 = Some (rowWon, (None, OWin)) /\
  boardGet (board nearWin) 0 2 = Some B /\
  boardGet (board rowWon) 0 2 = Some (currPiece nearWin) /\
  forall x' y', (x', y') <> (0, 2) ->
                boardGet (board rowWon) x' y' = boardGet (board nearWin) x' y'.
Proof.
  assert (makeMove nearWin "alice" 0 2 = Some (rowWon, (None, OWin))) as Hm
    by reflexivity.
  exact (conj Hm (makeMove_board _ _ _ _ _ _ Hm)).
Defined.

Lemma makeMove_error_same g u x y g' e r :
  makeMove g u x y = Some (g', (Some e, r)) -> g' = g.
Proof.
  intros Hm.
  destruct (decide (u = currPlayer g)) as [Hu|Hu];
    [|rewrite makeMove_not_turn in Hm by done; by simplify_eq].
  destruct (decide (inRange x y)) as [Hr|Hr];
    [|rewrite makeMove_out_of_range in Hm by done; by simplify_eq].
  destruct (boardGet (board g) x y) as [q|] eqn:Hq.
  - destruct (decide (q = B)) as [->|Hq'];
      [|erewrite makeMove_not_empty in Hm by done; by simplify_eq].
    rewrite makeMove_valid in Hm by done.
    destruct (placed g x y) as [g1|]; simpl in Hm; [|done].
    by destruct (checkGameOver g1 x y) as [r'|]; simpl in Hm.
  - unfold makeMove in Hm. subst u. rewrite String.eqb_refl in Hm.
    apply range_check_false in Hr. simpl in Hm. rewrite Hr, Hq in Hm. done.
Qed.

Lemma makeMove_keeps_piece g u x y g' ret x' y' q :
  makeMove g u x y = Some (g', ret) ->
  boardGet (board g) x' y' = Some q -> q <> B ->
  boardGet (board g') x' y' = Some q.
Proof.
  intros Hm Hq Hne. destruct ret as [[e|] r].
  - by rewrite (makeMove_error_same _ _ _ _ _ _ _ Hm).
  - apply makeMove_board in Hm as (Hc & _ & Hframe).
    rewrite Hframe; [done|]. intros [= -> ->]. congruence.
Qed.

(** X10: a piece on the board stays where it is: whatever calls of
    [makeMove] follow, valid or refused, a cell that holds O or X holds
    the same piece afterwards. *)
Theorem play_keeps_pieces calls : forall g g' rets x y q,
  play g calls = Some (g', rets) ->
  boardGet (board g) x y = Some q -> q <> B ->
  boardGet (board g') x y = Some q.
Proof.
  induction calls as [|c calls IH]; intros g g' rets x y q Hp Hq Hne;
    simpl in Hp.
  - by simplify_eq.
  - destruct (makeMove g (mover c) (cx c) (cy c)) as [[g1 ret]|] eqn:Hm;
      simpl in Hp; [|done].
    destruct (play g1 calls) as [[g2 rets']|] eqn:Hp'; simpl in Hp; [|done].
    simplify_eq. eapply IH; [done | | done].
    by eapply makeMove_keeps_piece.
Qed.

Lemma play_keeps_pieces_witness :
  play nearWin [mkCall "alice" 0 0; mkCall "alice" 0 2; mkCall "alice" 2 2] =
    Some (stateAfter nearWin
            [mkCall "alice" 0 0; mkCall "alice" 0 2; mkCall "alice" 2 2],
          [(Some (ErrNotEmpty 0 0), Pending); (None, OWin); (None, Pending)])
  /\
  boardGet (board nearWin) 1 0 = Some X /\
  boardGet
    (board (stateAfter nearWin
              [mkCall "alice" 0 0; mkCall "alice" 0 2; mkCall "alice" 2 2]))
    1 0 = Some X.
Proof.
  assert (play nearWin
            [mkCall "alice" 0 0; mkCall "alice" 0 2; mkCall "alice" 2 2] =
          Some (stateAfter nearWin
                  [mkCall "alice" 0 0; mkCall "alice" 0 2; mkCall "alice" 2 2],
                [(Some (ErrNotEmpty 0 0), Pending); (None, OWin);
                 (None, Pending)])) as Hp by (vm_compute; reflexivity).
  assert (boardGet (board nearWin) 1 0 = Some X) as Hq by reflexivity.
  split; [exact Hp|]. split; [exact Hq|].
  refine (play_keeps_pieces _ _ _ _ 1 0 X Hp Hq _). discriminate.
Defined.

(** ** Whose turn it is *)

Lemma makeMove_hand_over g u x y g' r :
  makeMove g u x y = Some (g', (None, r)) ->
  match r with
  | Pending =>
      currPiece g' = (if Piece_eqb (currPiece g) O then X else O) /\
      currPlayer g' = nextPlayer g /\ nextPlayer g' = u
  | OWin | XWin | Tie =>
      currPiece g' = currPiece g /\ currPlayer g' = u /\
      nextPlayer g' = nextPlayer g
  end.
Proof.
  intros Hm.
  apply makeMove_success in Hm as (-> & _ & _ & g1 & Hp & _ & ->).
  apply placed_board in Hp as (_ & Hpiece & Hcur & Hnext).
  destruct r; simpl; rewrite ?Hpiece, ?Hcur, ?Hnext; done.
Qed.

(** X11: a successful move that returns [Pending] hands the turn over:
    the other piece is to move, the former next player is the current
    one and the mover is next.  A move that returns a win or a tie hands
    nothing over: piece, current player and next player stay. *)
Theorem makeMove_turn g u x y g' r :
  makeMove g u x y = Some (g', (None, r)) ->
  match r with
  | Pending =>
      currPiece g' = (if Piece_eqb (currPiece g) O then X else O) /\
      currPlayer g' = nextPlayer g /\ nextPlayer g' = u
  | OWin | XWin | Tie =>
      currPiece g' = currPiece g /\ currPlayer g' = u /\
      nextPlayer g' = nextPlayer g
  end.
Proof. apply makeMove_hand_over. Qed.

Lemma makeMove_turn_witness :
  makeMove aliceGame "alice" 1 1 =
    Some (stateAfter aliceGame [mkCall "alice" 1 1], (None, Pending)) /\
  currPiece (stateAfter aliceGame [mkCall "alice" 1 1]) = X /\
  currPlayer (stateAfter aliceGame [mkCall "alice" 1 1]) = "" /\
  nextPlayer (stateAfter aliceGame [mkCall "alice" 1 1]) = "alice".
Proof.
  assert (makeMove aliceGame "alice" 1 1 =
            Some (stateAfter aliceGame [mkCall "alice" 1 1], (None, Pending)))
    as Hm by reflexivity.
  exact (conj Hm (makeMove_turn _ _ _ _ _ _ Hm)).
Defined.

(** X12: the game is not closed by a win: after a move that returned a
    result other than [Pending], the same user may place the same piece
    on any cell that is still blank. *)
Theorem makeMove_after_game_over g u x y g' r x' y' :
  reachable g ->
  makeMove g u x y = Some (g', (None, r)) -> r <> Pending ->
  inRange x' y' -> boardGet (board g') x' y' = Some B ->
  exists g'' r',
    makeMove g' u x' y' = Some (g'', (None, r')) /\
    boardGet (board g'') x' y' = Some (currPiece g).
Proof.
  intros Hreach Hm Hr Hin Hcell.
  pose proof (makeMove_hand_over _ _ _ _ _ _ Hm) as Hturn.
  assert (currPiece g' = currPiece g /\ currPlayer g' = u) as [Hpiece Hcur]
    by (destruct r; tauto).
  assert (reachable g') as Hreach' by (by eapply reach_move).
  pose proof (makeMove_cases g' u x' y' (Inv_wfGame g' (reachable_Inv g' Hreach')))
    as Hc.
  inversion Hc as [Hu | Hu Hout | q Hu _ Hq Hne | g1 r' Hu _ _ Hp Hk];
    try congruence.
  exists (afterResult g1 u r'), r'. split; [done|].
  rewrite afterResult_board.
  apply placed_board in Hp as (Hs & _).
  rewrite (boardGet_boardSet _ _ _ _ _ x' y' Hs), decide_True by done.
  by rewrite Hpiece.
Qed.

Lemma makeMove_after_game_over_witness :
  exists g'' r',
    makeMove rowWon "alice" 2 2 = Some (g'', (None, r')) /\
    boardGet (board g'') 2 2 = Some (currPiece nearWin).
Proof.
  refine (makeMove_after_game_over nearWin "alice" 0 2 rowWon OWin 2 2
            nearWin_reachable _ _ _ _).
  - reflexivity.
  - discriminate.
  - unfold inRange, boardSize. lia.
  - reflexivity.
Defined.

Lemma play_players a calls : forall g g' rets,
  (currPlayer g = a \/ currPlayer g = "") ->
  (nextPlayer g = a \/ nextPlayer g = "") ->
  play g calls = Some (g', rets) ->
  (currPlayer g' = a \/ currPlayer g' = "") /\
  (nextPlayer g' = a \/ nextPlayer g' = "").
Proof.
  induction calls as [|c calls IH]; intros g g' rets Hcur Hnext Hp;
    simpl in Hp.
  - by simplify_eq.
  - destruct (makeMove g (mover c) (cx c) (cy c)) as [[g1 [e r]]|] eqn:Hm;
      simpl in Hp; [|done].
    destruct (play g1 calls) as [[g2 rets']|] eqn:Hp'; simpl in Hp; [|done].
    simplify_eq. eapply IH; [| |done].
    + destruct e as [e|];
        [by rewrite (makeMove_error_same _ _ _ _ _ _ _ Hm)|].
      pose proof (makeMove_success _ _ _ _ _ _ Hm) as (Hu & _).
      apply makeMove_hand_over in Hm.
      destruct r; destruct Hm as (_ & -> & _); congruence.
    + destruct e as [e|];
        [by rewrite (makeMove_error_same _ _ _ _ _ _ _ Hm)|].
      pose proof (makeMove_success _ _ _ _ _ _ Hm) as (Hu & _).
      apply makeMove_hand_over in Hm.
      destruct r; destruct Hm as (_ & _ & ->); congruence.
Qed.

(** X13: in a game started by [startGame userA userB], whatever calls
    have been made, a move by a user other than [userA] and the user
    named by the empty string is refused with the not-your-turn error;
    that holds for [userB]. *)
Theorem other_user_refused games userA userB games' g0 calls g rets u x y :
  startGame games userA userB = Some (games', g0) ->
  play g0 calls = Some (g, rets) ->
  u <> userA -> u <> "" ->
  makeMove g u x y = Some (g, (Some (ErrNotTurn u), Pending)).
Proof.
  rewrite startGame_eq. intros [= _ <-] Hp Hu Hu'.
  apply (play_players userA) in Hp as [Hcur _]; simpl; auto.
  apply makeMove_not_turn. destruct Hcur; congruence.
Qed.

Lemma other_user_refused_witness :
  makeMove nearWin "bob" 2 2 =
    Some (nearWin, (Some (ErrNotTurn "bob"), Pending)).
Proof.
  refine (other_user_refused ∅ "alice" "bob" _ aliceGame
            (take 4 (scenario "alice" "")) nearWin
            (replicate 4 (None, Pending)) "bob" 2 2
            (startGame_eq ∅ "alice" "bob") _ _ _).
  - reflexivity.
  - discriminate.
  - discriminate.
Defined.

(** ** Counters, results and the board *)

(** X14: in every state reached from [startGame] the counters say what
    is on the board: [rows[i]] is the number of the player's pieces in
    the cells (i,0), (i,1), (i,2), [cols[j]] the number in (0,j), (1,j),
    (2,j), [diags[0]] the number on the corners (0,0) and (2,2), and
    [diags[1]] the number on the corners (2,0) and (0,2); the piece to
    move is never the blank one. *)
Theorem counters_track_board g :
  reachable g ->
  oCounts g = tracked O (board g) /\
  xCounts g = tracked X (board g) /\
  currPiece g <> B.
Proof. intros Hg. apply reachable_Inv in Hg. split_and!; apply Hg. Qed.

Lemma counters_track_board_witness :
  oCounts rowWon = tracked O (board rowWon) /\
  xCounts rowWon = tracked X (board rowWon) /\
  currPiece rowWon <> B.
Proof.
  apply counters_track_board.
  apply (reach_move nearWin "alice" 0 2 rowWon (None, OWin) nearWin_reachable).
  reflexivity.
Defined.

(** X15: a win is never reported without a line: when a call in a state
    reached from [startGame] returns [OWin] or [XWin], the board after
    the call has a row, a column or a diagonal filled with the winner's
    piece. *)
Theorem reported_win_is_line g u x y g' e r p :
  reachable g -> makeMove g u x y = Some (g', (e, r)) ->
  winnerOf r = Some p -> scanWins p (board g') = true.
Proof. apply win_sound. Qed.

Lemma reported_win_is_line_witness :
  scanWins O (board rowWon) = true.
Proof.
  refine (reported_win_is_line nearWin "alice" 0 2 rowWon None OWin O
            nearWin_reachable _ _); reflexivity.
Defined.

Lemma checkGameOver_Tie g x y :
  checkGameOver g x y = Some Tie ->
  totalPieces g = boardSize * boardSize.
Proof.
  unfold checkGameOver. intros H.
  destruct (totalPieces g =? boardSize * boardSize) eqn:E; [lia|].
  destruct (Piece_eqb (currPiece g) O);
    destruct (diagWin _ _ _) as [[]|], (rowWin _ _) as [[]|],
      (colWin _ _) as [[]|]; simpl in H; done.
Qed.

Lemma makeMove_placed_Inv g u x y g' r :
  reachable g -> makeMove g u x y = Some (g', (None, r)) ->
  inRange x y /\
  exists g1, Inv g1 /\ currPiece g1 = currPiece g /\
             board g' = board g1 /\ checkGameOver g1 x y = Some r.
Proof.
  intros Hreach Hm. apply reachable_Inv in Hreach.
  apply makeMove_success in Hm as (_ & Hin & Hc & g1 & Hp & Hk & ->).
  destruct (placed_Inv g x y Hreach Hin Hc)
    as (g1' & Hp' & Hg1 & Hpiece & _).
  assert (g1' = g1) as -> by congruence.
  split; [done|]. exists g1. by rewrite afterResult_board.
Qed.

(** X16: [Tie] is returned only for the piece that fills the board, and
    [Pending] only while a blank cell is left: after a successful move
    in a state reached from [startGame], [Tie] comes with boardSize *
    boardSize non-blank cells and [Pending] with fewer. *)
Theorem tie_full_pending_not g u x y g' r :
  reachable g -> makeMove g u x y = Some (g', (None, r)) ->
  match r with
  | Tie => nonBlank (board g') = boardSize * boardSize
  | Pending => nonBlank (board g') < boardSize * boardSize
  | OWin | XWin => True
  end.
Proof.
  intros Hreach Hm.
  destruct (makeMove_placed_Inv _ _ _ _ _ _ Hreach Hm)
    as (_ & g1 & Hg1 & _ & -> & Hk).
  rewrite <- (inv_total g1 Hg1).
  destruct r; try done.
  - by apply checkGameOver_Tie in Hk.
  - apply checkGameOver_Pending in Hk.
    pose proof (nonBlank_le (board g1) (inv_board g1 Hg1)) as Hle.
    rewrite <- (inv_total g1 Hg1) in Hle. lia.
Qed.

Lemma tie_full_pending_not_witness :
  nonBlank (board (stateAfter aliceGame fullBoardGame)) = boardSize * boardSize.
Proof.
  refine (tie_full_pending_not (stateAfter aliceGame (take 8 fullBoardGame))
            "alice" 1 1 (stateAfter aliceGame fullBoardGame) Tie _ _).
  - eapply (play_reachable (take 8 fullBoardGame) aliceGame).
    + eapply (reach_start ∅ _ "alice" "bob"), startGame_eq.
    + vm_compute. reflexivity.
  - vm_compute. reflexivity.
Defined.

Lemma rowWin_tracked p b x :
  0 <= x < boardSize ->
  rowWin (tracked p b) x = Some (rowCount p b x =? boardSize) /\
  colWin (tracked p b) x = Some (colCount p b x =? boardSize).
Proof.
  intros Hx. apply coord_cases in Hx.
  by destruct Hx as [-> | [-> | ->]].
Qed.

(** X17: a completed row always wins, and so does a completed column of
    the first player: if after a successful move in a state reached from
    [startGame] all cells (x,0), (x,1), (x,2) hold the mover's piece, or
    the mover's piece is O and all cells (0,y), (1,y), (2,y) hold it,
    the call returns the mover's win. *)
Theorem full_row_wins g u x y g' r :
  reachable g -> makeMove g u x y = Some (g', (None, r)) ->
  rowCount (currPiece g) (board g') x = boardSize \/
  (currPiece g = O /\ colCount O (board g') y = boardSize) ->
  winnerOf r = Some (currPiece g).
Proof.
  intros Hreach Hm Hfull.
  destruct (makeMove_placed_Inv _ _ _ _ _ _ Hreach Hm)
    as ([Hx Hy] & g1 & Hg1 & Hpiece & Hb & Hk).
  rewrite Hb, <- Hpiece in Hfull. rewrite <- Hpiece.
  destruct (Inv_diagWin g1 x y Hg1) as [Hdo Hdx].
  destruct (rowWin_tracked O (board g1) x) as [Hro _]; [done|].
  destruct (rowWin_tracked O (board g1) y) as [_ Hco]; [done|].
  destruct (rowWin_tracked X (board g1) x) as [Hrx Hcx]; [done|].
  rewrite <- (inv_o g1 Hg1) in Hro, Hco. rewrite <- (inv_x g1 Hg1) in Hrx, Hcx.
  destruct (currPiece g1) eqn:Hp.
  - rewrite (checkGameOver_first g1 x y _ _ _ Hp Hdo Hro Hco) in Hk.
    destruct Hfull as [Hfull | [_ Hfull]]; rewrite Hfull, Z.eqb_refl in Hk;
      simpl in Hk; rewrite ?orb_true_r in Hk; by simplify_eq.
  - rewrite (checkGameOver_second g1 x y _ _ _ ltac:(congruence) Hdx Hrx Hcx)
      in Hk.
    destruct Hfull as [Hfull | [? _]]; [|done].
    rewrite Hfull, Z.eqb_refl in Hk. simpl in Hk. by simplify_eq.
  - by destruct (inv_piece g1 Hg1).
Qed.

Lemma full_row_wins_witness :
  winnerOf OWin = Some (currPiece nearWin).
Proof.
  refine (full_row_wins nearWin "alice" 0 2 rowWon OWin
            nearWin_reachable _ _).
  - reflexivity.
  - left. reflexivity.
Defined.

(** X18: the move that puts the last piece on a board on which neither
    player has a row, a column or a diagonal returns [Tie]. *)
Theorem last_piece_without_line_ties g u x y g' r :
  reachable g -> makeMove g u x y = Some (g', (None, r)) ->
  totalPieces g' = boardSize * boardSize ->
  scanWinner (board g') = None ->
  r = Tie.
Proof. apply tie_without_line. Qed.

Lemma last_piece_without_line_ties_witness :
  board (stateAfter aliceGame drawGame) =
    [[O; X; O]; [O; X; X]; [X; O; O]] /\
  Tie = Tie.
Proof.
  split; [reflexivity|].
  refine (last_piece_without_line_ties
            (stateAfter aliceGame (take 8 drawGame)) "alice" 2 2
            (stateAfter aliceGame drawGame) Tie _ _ _ _).
  - eapply (play_reachable (take 8 drawGame) aliceGame).
    + eapply (reach_start ∅ _ "alice" "bob"), startGame_eq.
    + vm_compute. reflexivity.
  - vm_compute. reflexivity.
  - vm_compute. reflexivity.
  - vm_compute. reflexivity.
Defined.

(** X19: while the game is pending the two players alternate: after two
    successful moves in a row that both returned [Pending], the second
    mover is the player that was next, the first mover is to move again,
    and with the piece it had before. *)
Theorem two_moves_alternate g u x y g1 v x' y' g2 :
  makeMove g u x y = Some (g1, (None, Pending)) ->
  makeMove g1 v x' y' = Some (g2, (None, Pending)) ->
  v = nextPlayer g /\ currPlayer g2 = u /\ nextPlayer g2 = v /\
  (currPiece g <> B -> currPiece g2 = currPiece g).
Proof.
  intros Hm1 Hm2.
  pose proof (makeMove_success _ _ _ _ _ _ Hm2) as (Hv & _).
  apply makeMove_hand_over in Hm1 as (Hp1 & Hc1 & Hn1).
  apply makeMove_hand_over in Hm2 as (Hp2 & Hc2 & Hn2).
  split_and!; try congruence.
  intros Hb. rewrite Hp2, Hp1. by destruct (currPiece g).
Qed.

Lemma two_moves_alternate_witness :
  "" = nextPlayer aliceGame /\
  currPlayer (stateAfter aliceGame (take 2 (scenario "alice" ""))) = "alice" /\
  nextPlayer (stateAfter aliceGame (take 2 (scenario "alice" ""))) = "" /\
  (currPiece aliceGame <> B ->
   currPiece (stateAfter aliceGame (take 2 (scenario "alice" ""))) =
   currPiece aliceGame).
Proof.
  refine (two_moves_alternate aliceGame "alice" 0 0
            (stateAfter aliceGame (take 1 (scenario "alice" ""))) "" 1 0
            (stateAfter aliceGame (take 2 (scenario "alice" ""))) _ _);
    reflexivity.
Defined.
